(** * djangae.contrib.gauth.models

    A shallow embedding of [src/djangae/contrib/gauth/models.py]: the
    process-wide cache of permission choices, the declared schema of
    [Group], [PermissionsMixin] and [GaeAbstractBaseUser], the permission
    checks of [PermissionsMixin] and [GaeUserManager.pre_create_google_user].

    Layout:
    - [Py]      the Python values and built-ins the module relies on;
    - [Django]  the host framework's interface, as far as the module uses it;
    - [Gauth]   the module itself, definition by definition;
    - the properties, one section per subject. *)

From Stdlib Require Import String Ascii List Bool Arith Lia.
From stdpp Require Import base option list strings gmap sorting.

Local Open Scope string_scope.
Local Open Scope list_scope.

(* ===================================================================== *)
(** * Python values and built-ins                                          *)
(* ===================================================================== *)

Module Py.

(** A (codename, description) 2-tuple of byte strings. *)
Definition Choice : Type := string * string.

(** [a < b] on 2-tuples: the first position at which the tuples differ
    decides; strings compare byte by byte. *)
Definition tuple_lt (a b : Choice) : bool :=
  if String.eqb a.1 b.1 then String.ltb a.2 b.2 else String.ltb a.1 b.1.

(** [not (b < a)]: the only test a stable sort makes to leave [a] in
    front of [b]. *)
Definition tuple_le (a b : Choice) : Prop := tuple_lt b a = false.

#[export] Instance tuple_le_dec : RelDecision tuple_le.
Proof. intros a b; unfold tuple_le; apply _. Defined.

(** [sorted(l)]: a stable merge sort that returns a new list. *)
Definition sorted (l : list Choice) : list Choice := merge_sort tuple_le l.

(** Truth value of a variable holding [None] or a list: [None] and the
    empty list are both false. *)
Definition truthy {A} (v : option (list A)) : bool :=
  match v with
  | Some (_ :: _) => true
  | _ => false
  end.

(** ['%s_%s' % (a, b)] *)
Definition fmt_underscore (a b : string) : string := a ++ "_" ++ b.

(** ['Can %s %s' % (a, b)] *)
Definition fmt_can (a b : string) : string := "Can " ++ a ++ " " ++ b.

(** ['%s %s' % (a, b)] *)
Definition fmt_space (a b : string) : string := a ++ " " ++ b.

(** [c.isspace()] on a byte string: space, tab, newline, vertical tab,
    form feed, carriage return. *)
Definition isspace_byte (c : ascii) : bool :=
  let n := nat_of_ascii c in
  ((9 <=? n)%nat && (n <=? 13)%nat) || (n =? 32)%nat.

(** [s.lstrip()], [s.rstrip()] and [s.strip()], for the whitespace test of
    the string type at hand. *)
Fixpoint lstrip (isspace : ascii → bool) (s : string) : string :=
  match s with
  | String c s' => if isspace c then lstrip isspace s' else s
  | EmptyString => EmptyString
  end.

Fixpoint rstrip (isspace : ascii → bool) (s : string) : string :=
  match s with
  | String c s' =>
      match rstrip isspace s' with
      | EmptyString => if isspace c then EmptyString else String c EmptyString
      | kept => String c kept
      end
  | EmptyString => EmptyString
  end.

Definition strip (isspace : ascii → bool) (s : string) : string :=
  rstrip isspace (lstrip isspace s).

End Py.

(* ===================================================================== *)
(** * Code that threads state                                              *)
(* ===================================================================== *)

Module St.

(** A computation that reads and writes a state [S] and returns an [A]. *)
Definition State (S A : Type) : Type := S → A * S.
Definition ret {S A} (a : A) : State S A := λ s, (a, s).
Definition bind {S A B} (m : State S A) (k : A → State S B) : State S B :=
  λ s, let '(a, s') := m s in k a s'.
Definition gets {S A} (f : S → A) : State S A := λ s, (f s, s).
Definition modify {S} (f : S → S) : State S unit := λ s, (tt, f s).

Notation "x <~ m ;; k" := (bind m (λ x, k))
  (at level 100, m at next level, right associativity).
Notation "m ;;; k" := (bind m (λ _, k))
  (at level 100, right associativity).

(** Runs the plumbing of a computation, leaving the calls it makes. *)
Ltac run_state := unfold bind, gets, modify, ret; cbv beta.

End St.

(* ===================================================================== *)
(** * The host framework                                                   *)
(* ===================================================================== *)

(** The framework is taken as of the release whose names the module
    imports ([django.db.models.loading], [signals.post_syncdb],
    [auth.get_permission_codename]): Django 1.6. *)
Module Django.
Import Py St.

(** ** Model registry and settings *)

(** [model._meta], reduced to the two attributes the module reads. *)
Record Options := mkOptions {
  model_name : string;
  verbose_name_raw : string
}.

(** The model registry: [get_apps()] lists the applications and
    [get_models(app)] the models of one of them. *)
Definition App : Type := list Options.
Definition get_models (app : App) : list Options := app.

(** [django.contrib.auth.get_permission_codename] *)
Definition get_permission_codename (action : string) (opts : Options) : string :=
  fmt_underscore action (model_name opts).

(** [django.conf.settings], reduced to the two names the module looks up;
    [None] is an attribute that is not set. *)
Record Settings := mkSettings {
  AUTOGENERATED_PERMISSIONS : option (list string);
  MANUAL_PERMISSIONS : option (list Choice)
}.

(** ** Regular expressions

    The fragment of [re] that the module's one pattern needs, matched the
    way [regex.search] does without flags. *)
Inductive Atom :=
| Bol                 (* ^      start of the string *)
| Eol                 (* $      end of the string, or just before a newline that ends it *)
| Digits (n : nat).   (* \d{n}  exactly n characters in 0..9 *)

Definition Regex : Type := list Atom.

Definition newline : string := String "010"%char "".

Definition is_digit (c : ascii) : bool :=
  (48 <=? nat_of_ascii c)%nat && (nat_of_ascii c <=? 57)%nat.

Fixpoint eat_digits (n : nat) (s : string) : option string :=
  match n with
  | 0 => Some s
  | S n' =>
      match s with
      | String c s' => if is_digit c then eat_digits n' s' else None
      | EmptyString => None
      end
  end.

(** Does the pattern match at the current position? [at_start] says
    whether that position is the start of the string, [s] is what is left
    of the string from there. *)
Fixpoint match_here (r : Regex) (at_start : bool) (s : string) : bool :=
  match r with
  | [] => true
  | Bol :: r' => at_start && match_here r' at_start s
  | Eol :: r' =>
      (String.eqb s "" || String.eqb s newline) && match_here r' at_start s
  | Digits n :: r' =>
      match eat_digits n s with
      | Some s' => match_here r' (at_start && (n =? 0)%nat) s'
      | None => false
      end
  end.

(** [regex.search(s)]: a match at some position of [s]. *)
Fixpoint search_from (r : Regex) (at_start : bool) (s : string) : bool :=
  match_here r at_start s ||
  match s with
  | String _ s' => search_from r false s'
  | EmptyString => false
  end.

Definition search (r : Regex) (s : string) : bool := search_from r true s.

(** ** Validators

    A validator is called on a value and either returns or raises
    [ValidationError] with a code; [None] stands for a normal return. *)
Inductive Validator :=
| RegexValidator (regex : Regex) (message code : string)
| MaxLengthValidator (limit_value : nat).

Definition call_validator (v : Validator) (value : string) : option string :=
  match v with
  | RegexValidator regex _ code =>
      if negb (search regex value) then Some code else None
  | MaxLengthValidator limit_value =>
      if (limit_value <? String.length value)%nat then Some "max_length" else None
  end.

(** ** Field declarations *)

Definition Time : Type := Z.

(** Values of the attributes of a model instance. *)
Inductive Value :=
| VNone
| VBool (b : bool)
| VInt (n : Z)
| VStr (s : string)
| VTime (t : Time)
| VList (items : list string).

#[export] Instance Value_eq_dec : EqDecision Value.
Proof. solve_decision. Defined.

Inductive Default :=
| DefaultValue (v : Value)
| timezone_now.        (* a callable, called when an instance is made *)

(** The keyword arguments the module passes to field constructors; the
    translated label that comes first is [verbose_name]. *)
Inductive Kwarg :=
| verbose_name (s : string)
| help_text (s : string)
| max_length (n : nat)
| unique (b : bool)
| null (b : bool)
| blank (b : bool)
| default_ (d : Default)
| choices (c : list Choice)
| validators (vs : list Validator).

(** Modelled from the spec: [djangae.fields.ListField] and
    [djangae.fields.RelatedSetField] are imported by the module from a file
    that is not among the sources at hand. A [ListField] holds an ordered
    list of values of its item field on the record itself; a
    [RelatedSetField] holds a set of references to instances of a model.
    The other constructors are field classes of the framework. *)
Inductive Field :=
| CharField (kw : list Kwarg)
| EmailField (kw : list Kwarg)
| BooleanField (kw : list Kwarg)
| DateTimeField (kw : list Kwarg)
| ListField (item_field_type : Field) (kw : list Kwarg)
| RelatedSetField (model : string) (kw : list Kwarg)
| ManyToManyField (model : string) (kw : list Kwarg).

Definition kwargs (f : Field) : list Kwarg :=
  match f with
  | CharField kw | EmailField kw | BooleanField kw | DateTimeField kw
  | ListField _ kw | RelatedSetField _ kw | ManyToManyField _ kw => kw
  end.

(** The value of a keyword argument, [None] when it is not passed. *)
Definition kwarg {A} (pick : Kwarg → option A) (f : Field) : option A :=
  list_find (λ k, is_Some (pick k)) (kwargs f) ≫= λ '(_, k), pick k.

(** What [Field.__init__] keeps for each of them. *)
Definition field_max_length (f : Field) : option nat :=
  kwarg (λ k, if k is max_length n then Some n else None) f.
Definition field_unique (f : Field) : bool :=
  default false (kwarg (λ k, if k is unique b then Some b else None) f).
Definition field_null (f : Field) : bool :=
  default false (kwarg (λ k, if k is null b then Some b else None) f).
Definition field_blank (f : Field) : bool :=
  default false (kwarg (λ k, if k is blank b then Some b else None) f).
Definition field_default (f : Field) : option Default :=
  kwarg (λ k, if k is default_ d then Some d else None) f.
Definition field_choices (f : Field) : list Choice :=
  default [] (kwarg (λ k, if k is choices c then Some c else None) f).

(** [self.validators]: the ones passed in, and for a [CharField] a
    [MaxLengthValidator] appended by its constructor. *)
Definition field_validators (f : Field) : list Validator :=
  default [] (kwarg (λ k, if k is validators vs then Some vs else None) f) ++
  match f, field_max_length f with
  | CharField _, Some n => [MaxLengthValidator n]
  | _, _ => []
  end.

(** A field that is stored through rows of another table. *)
Definition relational (f : Field) : bool :=
  if f is ManyToManyField _ _ then true else false.

(** [Field.get_default] for a declared default; [None]: none declared. *)
Definition get_default (f : Field) (now : Time) : option Value :=
  match field_default f with
  | Some (DefaultValue v) => Some v
  | Some timezone_now => Some (VTime now)
  | None => None
  end.

(** ** Validation of a text field

    The value of a text field is a string or [None]. The outcome is the
    list of the codes of the [ValidationError] raised, empty when nothing
    is raised. *)
Definition in_empty_values (value : option string) : bool :=
  match value with
  | None | Some EmptyString => true
  | Some _ => false
  end.

(** [Field.run_validators]: nothing runs on an empty value; otherwise
    every validator runs and the errors are collected. *)
Definition run_validators (f : Field) (value : option string) : list string :=
  match value with
  | None | Some EmptyString => []
  | Some s => omap (λ v, call_validator v s) (field_validators f)
  end.

(** [Field.validate] *)
Definition validate (f : Field) (value : option string) : list string :=
  match field_choices f, value with
  | _ :: _, Some (String _ _ as s) =>
      if decide (s ∈ (field_choices f).*1) then [] else ["invalid_choice"]
  | _, _ =>
      if bool_decide (value = None) && negb (field_null f) then ["null"]
      else if negb (field_blank f) && in_empty_values value then ["blank"]
      else []
  end.

(** [Field.clean]: [validate], then [run_validators]. *)
Definition clean (f : Field) (value : option string) : list string :=
  match validate f value with
  | [] => run_validators f value
  | errors => errors
  end.

(** A model class, as the fields its body declares. *)
Definition Fields : Type := list (string * Field).



(** [django.contrib.auth.models.AbstractBaseUser] *)
Definition AbstractBaseUser : Fields :=
  [ ("password", CharField [verbose_name "password"; max_length 128]);
    ("last_login", DateTimeField [verbose_name "last login"; default_ timezone_now]) ].

(** ** Authentication backends

    [auth.get_backends()] gives the configured backends; a backend may or
    may not have each method. What the framework asks of the backends is
    recorded, so that code that answers without them can be told apart. *)
Record Backend (U : Type) := mkBackend {
  backend_path : string;
  backend_has_perm : option (U → string → option Value → bool);
  backend_has_module_perms : option (U → string → bool)
}.
Arguments mkBackend {U}.
Arguments backend_path {U}.
Arguments backend_has_perm {U}.
Arguments backend_has_module_perms {U}.

Inductive Consulted :=
| GotBackends
| AskedPerm (backend perm : string)
| AskedModulePerms (backend app_label : string).

Record Auth (U : Type) := mkAuth {
  AUTHENTICATION_BACKENDS : list (Backend U);
  consulted : list Consulted
}.
Arguments mkAuth {U}.
Arguments AUTHENTICATION_BACKENDS {U}.
Arguments consulted {U}.

Section Backends.
Context {U : Type}.

Definition record (c : Consulted) : State (Auth U) unit :=
  modify (λ a, mkAuth (AUTHENTICATION_BACKENDS a) (consulted a ++ [c])).

Definition get_backends : State (Auth U) (list (Backend U)) :=
  record GotBackends ;;; gets AUTHENTICATION_BACKENDS.

Fixpoint each_has_perm (backends : list (Backend U)) (user : U)
    (perm : string) (obj : option Value) : State (Auth U) bool :=
  match backends with
  | [] => ret false
  | backend :: rest =>
      match backend_has_perm backend with
      | Some method =>
          record (AskedPerm (backend_path backend) perm) ;;;
          if method user perm obj then ret true
          else each_has_perm rest user perm obj
      | None => each_has_perm rest user perm obj
      end
  end.

(** [_user_has_perm] *)
Definition _user_has_perm (user : U) (perm : string) (obj : option Value)
    : State (Auth U) bool :=
  backends <~ get_backends ;;
  each_has_perm backends user perm obj.

Fixpoint each_has_module_perms (backends : list (Backend U)) (user : U)
    (app_label : string) : State (Auth U) bool :=
  match backends with
  | [] => ret false
  | backend :: rest =>
      match backend_has_module_perms backend with
      | Some method =>
          record (AskedModulePerms (backend_path backend) app_label) ;;;
          if method user app_label then ret true
          else each_has_module_perms rest user app_label
      | None => each_has_module_perms rest user app_label
      end
  end.

(** [_user_has_module_perms] *)
Definition _user_has_module_perms (user : U) (app_label : string)
    : State (Auth U) bool :=
  backends <~ get_backends ;;
  each_has_module_perms backends user app_label.

End Backends.

(** ** The manager and the password hashers

    [UserManager.normalize_email], [Manager.create] and
    [hashers.make_password] are the framework's; of the hashers the
    module relies on one fact, that [make_password(None)] is a password
    that [is_password_usable] refuses. *)
Class UserManager (Instance_ : Type) := {
  normalize_email : string → string;
  make_password : option string → string;
  is_password_usable : string → bool;
  create : gmap string Value → Instance_;
  make_password_None_unusable : is_password_usable (make_password None) = false
}.

(** ** Quoting for URLs

    [urllib.quote(s, safe)]: letters, digits and [_.-] are kept, and so are
    the characters of [safe]; any other byte becomes [%XX], in upper-case
    hexadecimal. *)
Definition code_between (first last : nat) (c : ascii) : bool :=
  let code := nat_of_ascii c in (first <=? code)%nat && (code <=? last)%nat.
Definition is_upper : ascii → bool := code_between 65 90.
Definition is_lower : ascii → bool := code_between 97 122.

Definition always_safe (c : ascii) : bool :=
  is_upper c || is_lower c || is_digit c ||
  Ascii.eqb c "_" || Ascii.eqb c "." || Ascii.eqb c "-".

Fixpoint occurs (c : ascii) (s : string) : bool :=
  match s with
  | String c' s' => Ascii.eqb c c' || occurs c s'
  | EmptyString => false
  end.

Definition hex_digit (n : nat) : ascii :=
  if (n <? 10)%nat then ascii_of_nat (48 + n) else ascii_of_nat (55 + n).

Definition quote_char (safe : string) (c : ascii) : string :=
  if always_safe c || occurs c safe then String c ""
  else String "%" (String (hex_digit (nat_of_ascii c / 16))
                    (String (hex_digit (nat_of_ascii c mod 16)) "")).

Fixpoint quote (s safe : string) : string :=
  match s with
  | String c s' => quote_char safe c ++ quote s' safe
  | EmptyString => EmptyString
  end.

(** [force_str] of a text attribute that may be [None]. *)
Definition force_str (v : option string) : string :=
  match v with
  | Some s => s
  | None => "None"
  end.

(** [django.utils.http.urlquote(url)], with its default [safe='/']. *)
Definition urlquote (url : option string) : string :=
  quote (force_str url) "/".

End Django.

(* ===================================================================== *)
(** * The module                                                           *)
(* ===================================================================== *)

Module Gauth.
Import Py St Django.

(** ** The permission choices *)

(** The state of the process that the module reads and writes: its own
    global [PERMISSIONS_LIST], the settings object and the registry. *)
Record Process := mkProcess {
  PERMISSIONS_LIST : option (list Choice);
  settings : Settings;
  app_cache : list App
}.

Definition get_apps : State Process (list App) := gets app_cache.

(** [getattr(settings, "MANUAL_PERMISSIONS", [])] hands out the list
    object held by the settings when the name is set, so what is appended
    to [result] is appended to that object too; the default [[]] is a
    list of the call's own. *)
Definition write_through (result : list Choice) : State Process unit :=
  modify (λ p,
    match MANUAL_PERMISSIONS (settings p) with
    | Some _ =>
        mkProcess (PERMISSIONS_LIST p)
          (mkSettings (AUTOGENERATED_PERMISSIONS (settings p)) (Some result))
          (app_cache p)
    | None => p
    end).

Definition set_PERMISSIONS_LIST (v : list Choice) : State Process unit :=
  modify (λ p, mkProcess (Some v) (settings p) (app_cache p)).

(** The three nested loops of the scan, appending to [result]. *)
Definition scan (AUTO_PERMISSIONS : list string) (apps : list App)
    (result : list Choice) : list Choice :=
  foldl (λ result app,
    foldl (λ result model,
      foldl (λ result action,
        let opts := model in
        result ++ [(get_permission_codename action opts,
                    fmt_can action (verbose_name_raw opts))])
        result AUTO_PERMISSIONS)
      result (get_models app))
    result apps.

Definition get_permission_choices : State Process (list Choice) :=
  cached <~ gets PERMISSIONS_LIST ;;
  if truthy cached then ret (default [] cached)
  else
    conf <~ gets settings ;;
    let AUTO_PERMISSIONS :=
      default ["add"; "change"; "delete"] (AUTOGENERATED_PERMISSIONS conf) in
    let result := default [] (MANUAL_PERMISSIONS conf) in
    apps <~ get_apps ;;
    let result := scan AUTO_PERMISSIONS apps result in
    write_through result ;;;
    set_PERMISSIONS_LIST (sorted result) ;;;
    ret (sorted result).

(** What can happen in a process between two calls: another call, or the
    registration of a model, in a new application or in the [i]-th one. *)
Inductive Event :=
| Call
| RegisterApp (models : App)
| RegisterModel (i : nat) (model : Options).

Definition register_app (models : App) (p : Process) : Process :=
  mkProcess (PERMISSIONS_LIST p) (settings p) (app_cache p ++ [models]).

Definition register_model (i : nat) (model : Options) (p : Process) : Process :=
  mkProcess (PERMISSIONS_LIST p) (settings p)
    (alter (λ app, app ++ [model]) i (app_cache p)).

Definition step (p : Process) (e : Event) : Process :=
  match e with
  | Call => (get_permission_choices p).2
  | RegisterApp models => register_app models p
  | RegisterModel i model => register_model i model p
  end.

Definition run (events : list Event) (p : Process) : Process :=
  foldl step p events.

(** A process that is about to import the module: the first statement
    sets [PERMISSIONS_LIST = None]. *)
Definition fresh (conf : Settings) (apps : list App) : Process :=
  mkProcess None conf apps.

(** ** The model classes

    A class body runs when the module is imported, in the process as it
    is then; the two classes that pass [choices=get_permission_choices()]
    call the function in their body, the arguments of a call from left to
    right. A class is the list of the fields its body declares. *)

Definition Group : State Process Fields :=
  item_choices <~ get_permission_choices ;;
  list_choices <~ get_permission_choices ;;
  ret [ ("name", CharField [verbose_name "name"; max_length 80; unique true]);
        ("permissions",
          ListField (CharField [max_length 500; choices item_choices])
            [verbose_name "permissions"; blank true; choices list_choices]) ].

Definition PermissionsMixin : State Process Fields :=
  list_choices <~ get_permission_choices ;;
  ret [ ("is_superuser",
          BooleanField
            [verbose_name "superuser status"; default_ (DefaultValue (VBool false));
             help_text "Designates that this user has all permissions without explicitly assigning them."]);
        ("groups",
          RelatedSetField "Group"
            [verbose_name "groups"; blank true;
             help_text "The groups this user belongs to. A user will get all permissions granted to each of his/her group."]);
        ("user_permissions",
          ListField (CharField [max_length 500])
            [verbose_name "user permissions"; blank true;
             help_text "Specific permissions for this user.";
             choices list_choices]) ].

(** The fields the body of [GaeAbstractBaseUser] declares; the class
    inherits those of [AbstractBaseUser]. *)
Definition GaeAbstractBaseUser : Fields :=
  [ ("username",
      CharField
        [verbose_name "User ID"; max_length 21; unique true; null true;
         validators
           [RegexValidator [Bol; Digits 21; Eol] "User Id should be 21 digits." "invalid"]]);
    ("first_name", CharField [verbose_name "first name"; max_length 30; blank true]);
    ("last_name", CharField [verbose_name "last name"; max_length 30; blank true]);
    ("email", EmailField [verbose_name "email address"]);
    ("is_staff",
      BooleanField
        [verbose_name "staff status"; default_ (DefaultValue (VBool false));
         help_text "Designates whether the user can log into this admin site."]);
    ("is_active",
      BooleanField
        [verbose_name "active"; default_ (DefaultValue (VBool true));
         help_text "Designates whether this user should be treated as active. Unselect this instead of deleting accounts."]);
    ("date_joined", DateTimeField [verbose_name "date joined"; default_ timezone_now]) ].

Definition GaeAbstractBaseUser_bases : Fields := AbstractBaseUser.

(** The field of a class by name. *)
Definition field (name : string) (fields : Fields) : option Field :=
  (λ found, found.2.2) <$> list_find (λ nf, nf.1 = name) fields.

(** ** Permission checks *)

(** An instance of a user model built from [GaeAbstractBaseUser] and
    [PermissionsMixin]. *)
Record User := mkUser {
  username : option string;
  first_name : string;
  last_name : string;
  email : string;
  is_staff : bool;
  is_active : bool;
  date_joined : Time;
  is_superuser : bool;
  groups : list Z;
  user_permissions : list string
}.

Definition has_perm (self : User) (perm : string) (obj : option Value)
    : State (Auth User) bool :=
  (* Active superusers have all permissions. *)
  if is_active self && is_superuser self then ret true
  (* Otherwise we need to check the backends. *)
  else _user_has_perm self perm obj.

Fixpoint has_perms (self : User) (perm_list : list string) (obj : option Value)
    : State (Auth User) bool :=
  match perm_list with
  | [] => ret true
  | perm :: rest =>
      granted <~ has_perm self perm obj ;;
      if negb granted then ret false
      else has_perms self rest obj
  end.

Definition has_module_perms (self : User) (app_label : string)
    : State (Auth User) bool :=
  (* Active superusers have all permissions. *)
  if is_active self && is_superuser self then ret true
  else _user_has_module_perms self app_label.

(** ** The manager *)

Section GaeUserManager.
Context {Instance_ : Type} {self : UserManager Instance_}.

Definition pre_create_google_user (email : string)
    (extra_fields : gmap string Value) : Instance_ :=
  let values : gmap string Value :=
    (* defaults which can be overriden *)
    {[ "is_active" := VBool true ]} in
  let values := extra_fields ∪ values in
  let values :=
    (* things which cannot be overridden *)
    <["password" := VStr (make_password None)]>
      (<["username" := VNone]>
        (<["email" := VStr (normalize_email email)]> values)) in
  create values.

End GaeUserManager.

(** ** The other methods of [PermissionsMixin] *)

(** A backend as [get_group_permissions] sees it: it may have the method,
    which takes the user and, when one is passed, an object. *)
Record GroupBackend := mkGroupBackend {
  backend_get_group_permissions : option (User → option Value → gset string)
}.

Definition get_group_permissions (backends : list GroupBackend) (self : User)
    (obj : option Value) : gset string :=
  foldl (λ permissions backend,
    match backend_get_group_permissions backend with
    | Some method =>
        match obj with
        | Some o => permissions ∪ method self (Some o)
        | None => permissions ∪ method self None
        end
    | None => permissions
    end) ∅ backends.

(** ** The methods of [GaeAbstractBaseUser] *)

Definition get_absolute_url (self : User) : string :=
  "/users/" ++ urlquote (username self) ++ "/".

Section Names.
(** The whitespace test of the type of string the names are. *)
Context (isspace : ascii → bool).

Definition get_full_name (self : User) : string :=
  let full_name := fmt_space (first_name self) (last_name self) in
  strip isspace full_name.

End Names.

Definition get_short_name (self : User) : string := first_name self.

End Gauth.

(* ===================================================================== *)
(** * The specification's vocabulary                                       *)
(* ===================================================================== *)

Module Spec.
Import Py St Django Gauth.

(** Ascending lexicographic order on (codename, description) pairs:
    the codenames decide, and the descriptions when they are equal. *)
Definition lex_le (a b : Choice) : Prop :=
  strict String.le a.1 b.1 ∨ (a.1 = b.1 ∧ String.le a.2 b.2).

(** The pairs generated for one model: one per action, the framework's
    codename with the description 'Can <action> <verbose name>'. *)
Definition model_choices (actions : list string) (model : Options) : list Choice :=
  (λ action, (get_permission_codename action model,
              ("Can " ++ action ++ " " ++ verbose_name_raw model)%string)) <$> actions.

(** The pairs generated for a registry: those of every model of every
    application. *)
Definition registry_choices (actions : list string) (apps : list App) : list Choice :=
  app ← apps; model ← get_models app; model_choices actions model.

(** The actions in force: the setting, add/change/delete without it. *)
Definition actions_of (conf : Settings) : list string :=
  default ["add"; "change"; "delete"] (AUTOGENERATED_PERMISSIONS conf).

(** The manually configured permissions: the setting, none without it. *)
Definition manual_of (conf : Settings) : list Choice :=
  default [] (MANUAL_PERMISSIONS conf).

(** The process after a scan: the variable set, and the appended pairs
    in the settings' own list when there is one. *)
Definition scanned (p : Process) (result : list Choice) : Process :=
  mkProcess (Some (sorted result))
    (match MANUAL_PERMISSIONS (settings p) with
     | Some _ => mkSettings (AUTOGENERATED_PERMISSIONS (settings p)) (Some result)
     | None => settings p
     end)
    (app_cache p).

(** What [PERMISSIONS_LIST] holds is sorted, in every process that
    started with the import of the module. *)
Definition cache_sorted (p : Process) : Prop :=
  ∀ l, PERMISSIONS_LIST p = Some l → Sorted lex_le l.

(** A user is granted a permission when the user is an active superuser
    or a configured backend that has [has_perm] grants it. *)
Definition backend_grants (user : User) (perm : string) (obj : option Value)
    (backend : Backend User) : bool :=
  match backend_has_perm backend with
  | Some method => method user perm obj
  | None => false
  end.

Definition granted (backends : list (Backend User)) (user : User)
    (perm : string) (obj : option Value) : bool :=
  (is_active user && is_superuser user) ||
  existsb (backend_grants user perm obj) backends.

(** The type of a field, without its options. *)
Inductive Kind :=
| Text | Email | Boolean | DateTime
| ListOf (item : Kind)
| SetOfRefs (model : string)
| ManyToMany (model : string).

Fixpoint kind_of (f : Field) : Kind :=
  match f with
  | CharField _ => Text
  | EmailField _ => Email
  | BooleanField _ => Boolean
  | DateTimeField _ => DateTime
  | ListField item _ => ListOf (kind_of item)
  | RelatedSetField model _ => SetOfRefs model
  | ManyToManyField model _ => ManyToMany model
  end.

(** The declaration of a field of [GaeAbstractBaseUser], by name. *)
Definition declared (name : string) : Field :=
  default (CharField []) (field name GaeAbstractBaseUser).

Definition username_field : Field := declared "username".

(** A string of exactly 21 decimal digits. *)
Definition all_digits (s : string) : Prop :=
  Forall (λ c, is_digit c = true) (list_ascii_of_string s).
Definition is_user_id (s : string) : Prop :=
  String.length s = 21 ∧ all_digits s.

(** The first and the last character of a string. *)
Definition head_char (s : string) : option ascii :=
  match s with
  | String c _ => Some c
  | EmptyString => None
  end.

Fixpoint last_char (s : string) : option ascii :=
  match s with
  | String c EmptyString => Some c
  | String _ s' => last_char s'
  | EmptyString => None
  end.

(** A character that may stand in a URL path as it is, or [%]. *)
Definition url_char (c : ascii) : bool :=
  always_safe c || Ascii.eqb c "/" || Ascii.eqb c "%".

(** A backend grants permissions on a module. *)
Definition backend_grants_module (user : User) (app_label : string)
    (backend : Backend User) : bool :=
  match backend_has_module_perms backend with
  | Some method => method user app_label
  | None => false
  end.

(** The names that [pre_create_google_user] sets itself. *)
Definition fixed_names : gset string :=
  {[ "email"; "username"; "password" ]}.

End Spec.

Import Py St Django Gauth Spec.

(* ===================================================================== *)
(** * Sample data                                                          *)
(* ===================================================================== *)

Module Sample.
Import Py St Django Gauth.

Definition user_model : Options := mkOptions "user" "user".
Definition group_model : Options := mkOptions "group" "group".

(** No settings, nothing registered yet. *)
Definition empty_process : Process := fresh (mkSettings None None) [].

(** No settings, one application with one model. *)
Definition one_model_process : Process :=
  fresh (mkSettings None None) [[user_model]].

(** [AUTOGENERATED_PERMISSIONS = ('view',)], one model. *)
Definition view_only_process : Process :=
  fresh (mkSettings (Some ["view"]) None) [[user_model]].

(** [MANUAL_PERMISSIONS] set, two models. *)
Definition manual_process : Process :=
  fresh (mkSettings None (Some [("zap", "Can zap"); ("add_alarm", "Can add alarm")]))
    [[user_model]; [group_model]].

(** A manager over plain attribute maps: [create] keeps the keyword
    arguments, [normalize_email] lower-cases what follows the last [@],
    and [make_password(None)] is the marker [!], which
    [is_password_usable] refuses. *)
Definition lower (c : ascii) : ascii :=
  let n := nat_of_ascii c in
  if (65 <=? n)%nat && (n <=? 90)%nat then ascii_of_nat (n + 32) else c.

Fixpoint lower_domain (s : string) : string * bool :=
  match s with
  | EmptyString => (EmptyString, false)
  | String c s' =>
      let '(t, seen_at) := lower_domain s' in
      if seen_at then (String c t, true)
      else if Ascii.eqb c "@" then (String c t, true)
      else (String (lower c) t, false)
  end.

Definition lower_after_at (s : string) : string :=
  let '(t, seen_at) := lower_domain s in if seen_at then t else s.

Definition manager : UserManager (gmap string Value) := {|
  normalize_email := lower_after_at;
  make_password password :=
    if password is Some raw then String.append "sha1$" raw else "!";
  is_password_usable encoded := negb (String.prefix "!" encoded);
  create values := values;
  make_password_None_unusable := eq_refl
|}.

Definition superuser : User :=
  mkUser None "Ada" "Lovelace" "ada@example.com" true true 0%Z true [] [].

Definition staff_user : User :=
  mkUser (Some "123456789012345678901") "Bob" "" "bob@example.com"
    true true 0%Z false [] ["add_user"].

(** One backend that grants what is in [user_permissions], one without
    the methods. *)
Definition list_backend : Backend User :=
  mkBackend "ListBackend"
    (Some (λ user perm _, bool_decide (perm ∈ user_permissions user)))
    (Some (λ user app_label, false)).

Definition bare_backend : Backend User := mkBackend "BareBackend" None None.

Definition auth : Auth User := mkAuth [bare_backend; list_backend] [].

Definition user_id : string := "123456789012345678901".

Definition ada : User :=
  mkUser (Some user_id) "Ada" "Lovelace" "ada@example.com" false true 0%Z false [] [].

Definition group_backends : list GroupBackend :=
  [ mkGroupBackend None;
    mkGroupBackend (Some (λ user obj,
      if obj is Some _ then ∅ else list_to_set (user_permissions user))) ].

End Sample.

(* ===================================================================== *)
(** * Order and sorting                                                    *)
(* ===================================================================== *)

Section Order.

Lemma ltb_false_leb (a b : string) :
  String.ltb b a = false ↔ String.le a b.
Proof.
  unfold String.le, String.ltb, String.leb.
  rewrite (String.compare_antisym a b).
  destruct (String.compare b a); simpl; naive_solver.
Qed.

Lemma tuple_le_lex (a b : Choice) : tuple_le a b ↔ lex_le a b.
Proof.
  unfold tuple_le, tuple_lt, lex_le.
  destruct (String.eqb_spec b.1 a.1) as [Heq|Hne].
  - rewrite ltb_false_leb. split.
    + intros H. right. done.
    + intros [[_ Hn]|[_ H]]; [|done].
      destruct Hn. rewrite Heq. done.
  - rewrite ltb_false_leb. split.
    + intros H. left. split; [done|].
      intros H'. apply Hne. by apply (anti_symm String.le).
    + intros [[H _]|[Heq _]]; [done|congruence].
Qed.

#[local] Instance lex_le_total : Total lex_le.
Proof.
  intros a b. unfold lex_le.
  destruct (decide (a.1 = b.1)) as [Heq|Hne].
  - destruct (total String.le a.2 b.2); [left|right]; right; done.
  - destruct (total String.le a.1 b.1) as [H|H]; [left|right]; left;
      (split; [done|]); intros H'; apply Hne; by apply (anti_symm String.le).
Qed.

#[local] Instance lex_le_trans : Transitive lex_le.
Proof.
  intros a b c [[H1 N1]|[E1 H1]] [[H2 N2]|[E2 H2]]; unfold lex_le.
  - left. split; [by etrans|]. intros H. apply N1. by etrans.
  - left. rewrite <-E2. done.
  - left. rewrite E1. done.
  - right. split; [congruence|by etrans].
Qed.

#[local] Instance lex_le_antisym : AntiSymm (=) lex_le.
Proof.
  intros [a1 a2] [b1 b2] [[H1 N1]|[E1 H1]] [[H2 N2]|[E2 H2]]; simpl in *;
    try done; try (subst; by destruct N1); try (subst; by destruct N2).
  subst. f_equal. by apply (anti_symm String.le).
Qed.

#[local] Instance tuple_le_total : Total tuple_le.
Proof. intros a b. rewrite !tuple_le_lex. apply total, _. Qed.

Lemma sorted_Sorted (l : list Choice) : Sorted lex_le (sorted l).
Proof.
  eapply Sorted_ind with (R := tuple_le) (l := sorted l).
  - constructor.
  - intros a l' _ IH Hd. constructor; [done|].
    destruct Hd; constructor. by apply tuple_le_lex.
  - apply Sorted_merge_sort, _.
Qed.

Lemma sorted_Permutation (l : list Choice) : sorted l ≡ₚ l.
Proof. apply merge_sort_Permutation. Qed.

(** Whatever the sorting algorithm, there is one sorted arrangement of a
    list of pairs: the one [sorted] returns. *)
Lemma sorted_unique (l l' : list Choice) :
  Sorted lex_le l' → l' ≡ₚ l → l' = sorted l.
Proof.
  intros Hs Hp. apply (Sorted_unique lex_le); [done|apply sorted_Sorted|].
  by rewrite sorted_Permutation.
Qed.

Lemma sorted_nil_inv (l : list Choice) : sorted l = [] → l = [].
Proof.
  intros H. apply Permutation_nil. rewrite <-H. apply sorted_Permutation.
Qed.

End Order.

(* ===================================================================== *)
(** * The permission choices                                               *)
(* ===================================================================== *)

Section Scan.

Lemma foldl_append {A B} (f : list B → A → list B) (g : A → list B) l :
  (∀ r x, f r x = r ++ g x) →
  ∀ r, foldl f r l = r ++ (l ≫= g).
Proof.
  intros Hf. induction l as [|x l IH]; intros r; simpl.
  - by rewrite app_nil_r.
  - rewrite IH, Hf, <-app_assoc. done.
Qed.

Lemma scan_registry_choices actions apps result :
  scan actions apps result = result ++ registry_choices actions apps.
Proof.
  unfold scan, registry_choices.
  apply foldl_append. intros r app.
  apply foldl_append. intros r' model.
  rewrite (foldl_append _ (λ action,
    [(get_permission_codename action model,
      fmt_can action (verbose_name_raw model))])) by done.
  f_equal.
Qed.

(** The two paths of [get_permission_choices]. *)
Lemma get_permission_choices_cached p :
  truthy (PERMISSIONS_LIST p) = true →
  get_permission_choices p = (default [] (PERMISSIONS_LIST p), p).
Proof.
  intros H. unfold get_permission_choices. run_state. by rewrite H.
Qed.

Lemma get_permission_choices_scan_eq p :
  truthy (PERMISSIONS_LIST p) = false →
  let result :=
    manual_of (settings p) ++
    registry_choices (actions_of (settings p)) (app_cache p) in
  get_permission_choices p = (sorted result, scanned p result).
Proof.
  intros H. unfold get_permission_choices, get_apps, write_through,
    set_PERMISSIONS_LIST. run_state. rewrite H. simpl.
  rewrite scan_registry_choices. unfold manual_of, actions_of, scanned.
  destruct (MANUAL_PERMISSIONS (settings p)); done.
Qed.

Lemma get_permission_choices_scans p :
  truthy (PERMISSIONS_LIST p) = false →
  let result :=
    manual_of (settings p) ++
    registry_choices (actions_of (settings p)) (app_cache p) in
  (get_permission_choices p).1 = sorted result ∧
  PERMISSIONS_LIST (get_permission_choices p).2 = Some (sorted result) ∧
  app_cache (get_permission_choices p).2 = app_cache p.
Proof.
  intros H. rewrite get_permission_choices_scan_eq by done. done.
Qed.

(** A second call right after a call returns the same list and leaves
    the process as the first call left it. *)
Lemma get_permission_choices_again p :
  get_permission_choices (get_permission_choices p).2 =
    get_permission_choices p.
Proof.
  destruct (truthy (PERMISSIONS_LIST p)) eqn:H.
  { rewrite (get_permission_choices_cached p H). simpl.
    by apply get_permission_choices_cached. }
  rewrite (get_permission_choices_scan_eq p H). simpl.
  set (result := manual_of (settings p) ++ _).
  destruct (sorted result) as [|x l] eqn:Hs.
  - assert (result = []) as Hr by (by apply sorted_nil_inv).
    apply app_eq_nil in Hr as Hmg. destruct Hmg as [Hm Hg].
    rewrite get_permission_choices_scan_eq by (unfold scanned; by rewrite Hs).
    assert (manual_of (settings (scanned p result)) = [] ∧
            actions_of (settings (scanned p result)) = actions_of (settings p))
      as [Hm' Ha'].
    { unfold scanned, manual_of, actions_of. simpl.
      destruct (MANUAL_PERMISSIONS (settings p)) eqn:E; simpl; [done|].
      by rewrite E. }
    rewrite Hm', Ha'. change (app_cache (scanned p result)) with (app_cache p).
    rewrite Hg. simpl. unfold scanned. simpl. rewrite Hr.
    destruct (MANUAL_PERMISSIONS (settings p)) eqn:E; simpl; [done|].
    by rewrite E.
  - rewrite get_permission_choices_cached; unfold scanned; by rewrite Hs.
Qed.

Lemma truthy_Some_cons {A} (v : option (list A)) :
  truthy v = true → ∃ x l, v = Some (x :: l).
Proof. destruct v as [[|x l]|]; simpl; naive_solver. Qed.

(** A call leaves [PERMISSIONS_LIST] holding what it returns. *)
Lemma get_permission_choices_stores p :
  PERMISSIONS_LIST (get_permission_choices p).2 = Some (get_permission_choices p).1.
Proof.
  destruct (truthy (PERMISSIONS_LIST p)) eqn:H.
  - rewrite get_permission_choices_cached by done. simpl.
    apply truthy_Some_cons in H as (x & l & ->). done.
  - destruct (get_permission_choices_scans p H) as (-> & -> & _). done.
Qed.

(** Nothing that happens in the process changes a non-empty
    [PERMISSIONS_LIST]. *)
Lemma step_keeps_cache p e x l :
  PERMISSIONS_LIST p = Some (x :: l) →
  PERMISSIONS_LIST (step p e) = Some (x :: l).
Proof.
  intros H. destruct e; simpl; [|done..].
  rewrite get_permission_choices_cached; [done|]. by rewrite H.
Qed.

Lemma run_keeps_cache events p x l :
  PERMISSIONS_LIST p = Some (x :: l) →
  PERMISSIONS_LIST (run events p) = Some (x :: l).
Proof.
  revert p. induction events as [|e events IH]; intros p H; [done|].
  simpl. apply IH. by apply step_keeps_cache.
Qed.

Lemma step_cache_sorted p e : cache_sorted p → cache_sorted (step p e).
Proof.
  intros Hp. destruct e; simpl; [|done..].
  destruct (truthy (PERMISSIONS_LIST p)) eqn:H.
  - rewrite get_permission_choices_cached by done. done.
  - destruct (get_permission_choices_scans p H) as (_ & Hc & _).
    intros l. rewrite Hc. intros [= <-]. apply sorted_Sorted.
Qed.

Lemma run_cache_sorted events p : cache_sorted p → cache_sorted (run events p).
Proof.
  revert p. induction events as [|e events IH]; intros p H; [done|].
  simpl. apply IH. by apply step_cache_sorted.
Qed.

Lemma get_permission_choices_Sorted p :
  cache_sorted p → Sorted lex_le (get_permission_choices p).1.
Proof.
  intros Hp. destruct (truthy (PERMISSIONS_LIST p)) eqn:H.
  - rewrite get_permission_choices_cached by done. simpl.
    apply truthy_Some_cons in H as (x & l & Hl). rewrite Hl. by apply Hp.
  - destruct (get_permission_choices_scans p H) as (-> & _). apply sorted_Sorted.
Qed.

End Scan.

Section Choices.

(** C1, as amended. Once a call of [get_permission_choices] has returned
    a non-empty list, every later call in the process returns that list
    and changes nothing, whatever models are registered in between: a
    model registered later adds nothing to the result. *)
Theorem C1_nonempty_result_is_kept (p : Process) (events : list Event) :
  (get_permission_choices p).1 ≠ [] →
  let later := run events (get_permission_choices p).2 in
  get_permission_choices later = ((get_permission_choices p).1, later).
Proof.
  intros Hne later.
  pose proof (get_permission_choices_stores p) as Hc.
  destruct (get_permission_choices p).1 as [|x l] eqn:Hr; [done|].
  pose proof (run_keeps_cache events _ x l Hc) as Hl. fold later in Hl.
  rewrite get_permission_choices_cached; by rewrite Hl.
Qed.

(** One model registered, a second application registered after the first
    call: the later call still returns the three pairs of the first. *)
Lemma C1_nonempty_result_is_kept_witness :
  (get_permission_choices Sample.one_model_process).1 ≠ [] ∧
  let later :=
    run [RegisterApp [Sample.group_model]; Call]
      (get_permission_choices Sample.one_model_process).2 in
  get_permission_choices later =
    ([("add_user", "Can add user"); ("change_user", "Can change user");
      ("delete_user", "Can delete user")], later).
Proof.
  split.
  - vm_compute. discriminate.
  - apply (C1_nonempty_result_is_kept Sample.one_model_process
             [RegisterApp [Sample.group_model]; Call]).
    vm_compute. discriminate.
Defined.

(** C1, as stated, fails: when the first call finds nothing it returns
    the empty list, which counts as false like [None]; the next call scans
    again and returns the codenames of a model registered in between. *)
Lemma C1_empty_result_is_recomputed :
  let first := get_permission_choices Sample.empty_process in
  let later := run [RegisterApp [Sample.user_model]] first.2 in
  first.1 = [] ∧
  (get_permission_choices later).1 =
    [("add_user", "Can add user"); ("change_user", "Can change user");
     ("delete_user", "Can delete user")].
Proof. vm_compute. done. Qed.

(** C2, as amended. When [get_permission_choices] scans the registry it
    appends to the manual permissions, for every registered model in
    registry order, one (codename, description) pair per action of the
    [AUTOGENERATED_PERMISSIONS] setting, which is add, change, delete
    when the setting is absent; the codename is the framework's and the
    description is 'Can <action> <verbose name>'. The call returns these
    pairs and the manual ones, each as often as it was appended. *)
Theorem C2_scan_generates (p : Process) :
  truthy (PERMISSIONS_LIST p) = false →
  let manual := manual_of (settings p) in
  let actions := actions_of (settings p) in
  scan actions (app_cache p) manual =
    manual ++ registry_choices actions (app_cache p) ∧
  (get_permission_choices p).1 ≡ₚ
    manual ++ registry_choices actions (app_cache p) ∧
  (AUTOGENERATED_PERMISSIONS (settings p) = None →
   actions = ["add"; "change"; "delete"]).
Proof.
  intros H manual actions. split; [apply scan_registry_choices|]. split.
  - destruct (get_permission_choices_scans p H) as (-> & _).
    apply sorted_Permutation.
  - unfold actions, actions_of. by intros ->.
Qed.

(** Two manual permissions and two models under the default actions. *)
Lemma C2_scan_generates_witness :
  truthy (PERMISSIONS_LIST Sample.manual_process) = false ∧
  (get_permission_choices Sample.manual_process).1 ≡ₚ
    [("zap", "Can zap"); ("add_alarm", "Can add alarm");
     ("add_user", "Can add user"); ("change_user", "Can change user");
     ("delete_user", "Can delete user");
     ("add_group", "Can add group"); ("change_group", "Can change group");
     ("delete_group", "Can delete group")].
Proof.
  split; [reflexivity|].
  exact (proj1 (proj2 (C2_scan_generates Sample.manual_process eq_refl))).
Defined.

(** C2, as stated, fails: with [AUTOGENERATED_PERMISSIONS = ('view',)]
    the scan generates one pair for the model, for the action view, and
    none for add, change or delete. *)
Lemma C2_actions_are_configurable :
  truthy (PERMISSIONS_LIST Sample.view_only_process) = false ∧
  (get_permission_choices Sample.view_only_process).1 =
    [("view_user", "Can view user")].
Proof. vm_compute. done. Qed.

(** C10. The list that [get_permission_choices] returns is in ascending
    lexicographic order of its (codename, description) pairs, at every
    call in a process that started with the import of the module; the
    first call returns the manual permissions and the generated ones in
    one list. *)
Theorem C10_choices_sorted (conf : Settings) (apps : list App) (events : list Event) :
  Sorted lex_le (get_permission_choices (run events (fresh conf apps))).1 ∧
  (get_permission_choices (fresh conf apps)).1 ≡ₚ
    manual_of conf ++ registry_choices (actions_of conf) apps.
Proof.
  split.
  - apply get_permission_choices_Sorted, run_cache_sorted.
    intros l. simpl. done.
  - destruct (get_permission_choices_scans (fresh conf apps) eq_refl) as (-> & _).
    apply sorted_Permutation.
Qed.

End Choices.

(* ===================================================================== *)
(** * The manager                                                          *)
(* ===================================================================== *)

Section Manager.
Context {Instance_ : Type} {self : UserManager Instance_}.

(** C3. For every email and every [extra_fields],
    [pre_create_google_user] creates the record from keyword arguments in
    which [username] is [None], [password] is an unusable password and
    [email] is the normalized email, whatever [extra_fields] holds under
    these names; [is_active] is [True] unless [extra_fields] gives it
    another value, and every other name has the value [extra_fields]
    gives it. *)
Theorem C3_pre_create_google_user (email : string)
    (extra_fields : gmap string Value) :
  ∃ values : gmap string Value,
    pre_create_google_user email extra_fields = create values ∧
    values !! "username" = Some VNone ∧
    (∃ password, values !! "password" = Some (VStr password) ∧
                 is_password_usable password = false) ∧
    values !! "email" = Some (VStr (normalize_email email)) ∧
    values !! "is_active" =
      Some (default (VBool true) (extra_fields !! "is_active")) ∧
    ∀ name, name ∉ ["username"; "password"; "email"; "is_active"] →
            values !! name = extra_fields !! name.
Proof.
  eexists. split; [reflexivity|]. repeat split.
  - by simplify_map_eq.
  - exists (make_password None). split; [by simplify_map_eq|].
    apply make_password_None_unusable.
  - by simplify_map_eq.
  - rewrite !lookup_insert_ne by done. rewrite lookup_union.
    rewrite lookup_singleton_eq. by destruct (extra_fields !! "is_active").
  - intros name Hname.
    rewrite !lookup_insert_ne by set_solver. rewrite lookup_union.
    rewrite lookup_singleton_ne by set_solver.
    by destruct (extra_fields !! name).
Qed.

End Manager.

(** With the sample manager: [username] and [is_active] are passed in
    [extra_fields]; the first is overridden, the second is kept. *)
Lemma C3_pre_create_google_user_witness :
  ∃ values : gmap string Value,
    pre_create_google_user (self := Sample.manager) "Ada@Example.COM"
      {[ "username" := VStr "ada"; "is_active" := VBool false;
         "first_name" := VStr "Ada" ]} = values ∧
    values !! "username" = Some VNone ∧
    values !! "email" = Some (VStr "Ada@example.com") ∧
    values !! "is_active" = Some (VBool false) ∧
    values !! "first_name" = Some (VStr "Ada").
Proof.
  destruct (C3_pre_create_google_user (self := Sample.manager) "Ada@Example.COM"
              {[ "username" := VStr "ada"; "is_active" := VBool false;
                 "first_name" := VStr "Ada" ]})
    as (values & Hcreate & Husername & _ & Hemail & Hactive & Hother).
  exists values. split; [exact Hcreate|]. split; [exact Husername|].
  split; [exact Hemail|]. split; [exact Hactive|].
  rewrite (Hother "first_name"); [reflexivity|].
  intros Hin. apply list_elem_of_In in Hin. simpl in Hin.
  destruct Hin as [Hin|[Hin|[Hin|[Hin|[]]]]]; discriminate Hin.
Defined.

(* ===================================================================== *)
(** * Permission checks                                                    *)
(* ===================================================================== *)

Section Checks.

(** C8. For an active superuser [has_perm] and [has_module_perms] return
    [True] for every argument and leave the record of what was asked of
    the backends as it was: no backend is fetched or asked. *)
Theorem C8_active_superuser (self : User) :
  is_active self = true → is_superuser self = true →
  (∀ perm obj auth, has_perm self perm obj auth = (true, auth)) ∧
  (∀ app_label auth, has_module_perms self app_label auth = (true, auth)).
Proof.
  intros Ha Hs. unfold has_perm, has_module_perms. rewrite Ha, Hs. done.
Qed.

(** The sample superuser, with two backends configured and none asked. *)
Lemma C8_active_superuser_witness :
  has_perm Sample.superuser "djangae.add_group" None Sample.auth =
    (true, Sample.auth) ∧
  has_module_perms Sample.superuser "djangae" Sample.auth =
    (true, Sample.auth).
Proof.
  split.
  - apply (C8_active_superuser Sample.superuser eq_refl eq_refl).
  - apply (C8_active_superuser Sample.superuser eq_refl eq_refl).
Defined.

(** Asking the backends changes the record of what was asked, never the
    backends, and the answer is that of the first backend that grants. *)
Lemma each_has_perm_answer backends user perm obj auth :
  (each_has_perm backends user perm obj auth).1 =
    existsb (backend_grants user perm obj) backends ∧
  AUTHENTICATION_BACKENDS (each_has_perm backends user perm obj auth).2 =
    AUTHENTICATION_BACKENDS auth.
Proof.
  revert auth. induction backends as [|b backends IH]; intros auth; [done|].
  simpl. unfold backend_grants at 1.
  destruct (backend_has_perm b) as [method|]; [|apply IH].
  unfold record. run_state. simpl.
  destruct (method user perm obj); [done|]. simpl.
  destruct (IH (mkAuth (AUTHENTICATION_BACKENDS auth)
                  (consulted auth ++ [AskedPerm (backend_path b) perm])))
    as [Hr Hb].
  by rewrite Hr, Hb.
Qed.

Lemma has_perm_answer self perm obj auth :
  (has_perm self perm obj auth).1 =
    granted (AUTHENTICATION_BACKENDS auth) self perm obj ∧
  AUTHENTICATION_BACKENDS (has_perm self perm obj auth).2 =
    AUTHENTICATION_BACKENDS auth.
Proof.
  unfold has_perm, granted.
  destruct (is_active self && is_superuser self); [done|]. simpl.
  unfold _user_has_perm, get_backends, record. run_state. simpl.
  apply (each_has_perm_answer _ _ _ _ (mkAuth _ _)).
Qed.

Lemma has_perms_answer self perm_list obj auth :
  (has_perms self perm_list obj auth).1 =
    forallb (λ perm, granted (AUTHENTICATION_BACKENDS auth) self perm obj) perm_list.
Proof.
  revert auth. induction perm_list as [|perm rest IH]; intros auth; [done|].
  simpl. unfold bind.
  destruct (has_perm_answer self perm obj auth) as [Hr Hb].
  destruct (has_perm self perm obj auth) as [r auth']. simpl in *.
  rewrite <-Hr. destruct r; simpl; [|done]. by rewrite IH, Hb.
Qed.

(** C9. [has_perms] returns [True] exactly when [has_perm] returns
    [True] for every permission of the list; for the empty list it
    returns [True]. *)
Theorem C9_has_perms (self : User) (perm_list : list string)
    (obj : option Value) (auth : Auth User) :
  ((has_perms self perm_list obj auth).1 = true ↔
   ∀ perm, perm ∈ perm_list → (has_perm self perm obj auth).1 = true) ∧
  (has_perms self [] obj auth).1 = true.
Proof.
  split; [|done].
  rewrite has_perms_answer, forallb_forall.
  split; intros H perm Hin.
  - rewrite (proj1 (has_perm_answer _ _ _ _)). apply H. by apply list_elem_of_In.
  - rewrite <-(proj1 (has_perm_answer self perm obj auth)).
    apply H. by apply list_elem_of_In.
Qed.

(** A user who is not a superuser is answered by the backends, and what
    was asked of them is recorded. *)
Example has_perm_asks_backends :
  has_perm Sample.staff_user "add_user" None Sample.auth =
    (true, mkAuth [Sample.bare_backend; Sample.list_backend]
             [GotBackends; AskedPerm "ListBackend" "add_user"]) ∧
  (has_perms Sample.staff_user ["add_user"; "delete_user"; "add_user"] None
     Sample.auth).1 = false ∧
  consulted (has_perms Sample.staff_user ["add_user"; "delete_user"; "add_user"]
               None Sample.auth).2 =
    [GotBackends; AskedPerm "ListBackend" "add_user";
     GotBackends; AskedPerm "ListBackend" "delete_user"].
Proof. done. Qed.

End Checks.

(* ===================================================================== *)
(** * Validation of the user id                                            *)
(* ===================================================================== *)

Section UserId.

Lemma append_cons c (s t : string) :
  (String c s ++ t)%string = String c (s ++ t)%string.
Proof. reflexivity. Qed.

Lemma append_empty_l (t : string) : ("" ++ t)%string = t.
Proof. reflexivity. Qed.

Lemma append_empty (s : string) : (s ++ "")%string = s.
Proof.
  induction s as [|c s IH]; [done|]. rewrite append_cons. by f_equal.
Qed.

Lemma length_append (s t : string) :
  String.length (s ++ t)%string = String.length s + String.length t.
Proof.
  induction s as [|c s IH]; [done|]. rewrite append_cons. simpl. by rewrite IH.
Qed.

Lemma all_digits_cons c s :
  all_digits (String c s) ↔ is_digit c = true ∧ all_digits s.
Proof. unfold all_digits. simpl. by rewrite Forall_cons. Qed.

Lemma eat_digits_Some n s rest :
  eat_digits n s = Some rest ↔
  ∃ d, s = (d ++ rest)%string ∧ String.length d = n ∧ all_digits d.
Proof.
  revert s. induction n as [|n IH]; intros s; simpl.
  - split.
    + intros [= ->]. exists ""%string. repeat split. constructor.
    + intros ([|c d] & -> & Hl & _); [done|discriminate].
  - destruct s as [|c s].
    + split; [done|]. by intros ([|c d] & ? & ? & _).
    + destruct (is_digit c) eqn:Hc.
      * rewrite IH. split.
        -- intros (d & -> & <- & Hd). exists (String c d).
           repeat split. by apply all_digits_cons.
        -- intros ([|c' d] & Hs & Hl & Hd); [done|].
           rewrite append_cons in Hs. simpl in Hl.
           injection Hs as <- ->. injection Hl as <-.
           apply all_digits_cons in Hd as [_ Hd]. by exists d.
      * split; [done|].
        intros ([|c' d] & Hs & Hl & Hd); [done|].
        rewrite append_cons in Hs. injection Hs as <- ->.
        apply all_digits_cons in Hd as [Hd _]. congruence.
Qed.

(** A pattern that starts with [^] matches at the start only. *)
Lemma search_from_Bol r s : search_from (Bol :: r) false s = false.
Proof. induction s as [|c s IH]; simpl; [done|apply IH]. Qed.

Lemma search_anchored_digits n s :
  search [Bol; Digits n; Eol] s =
    match eat_digits n s with
    | Some rest => String.eqb rest "" || String.eqb rest newline
    | None => false
    end.
Proof.
  unfold search.
  assert (match_here [Bol; Digits n; Eol] true s =
          match eat_digits n s with
          | Some rest => String.eqb rest "" || String.eqb rest newline
          | None => false
          end) as Hm.
  { cbn [match_here andb]. destruct (eat_digits n s); [|done].
    by rewrite andb_true_r. }
  destruct s as [|c s]; cbn [search_from]; rewrite Hm.
  - by rewrite orb_false_r.
  - by rewrite search_from_Bol, orb_false_r.
Qed.

(** What the pattern [^\d{21}$] accepts: 21 digits, or 21 digits and a
    newline after them. *)
Lemma search_user_id_pattern s :
  search [Bol; Digits 21; Eol] s = true ↔
  is_user_id s ∨ ∃ d, is_user_id d ∧ s = (d ++ newline)%string.
Proof.
  rewrite search_anchored_digits.
  destruct (eat_digits 21 s) as [rest|] eqn:He.
  - apply eat_digits_Some in He as (d & -> & Hl & Hd).
    rewrite orb_true_iff, !String.eqb_eq. split.
    + intros [->| ->].
      * left. rewrite append_empty. done.
      * right. by exists d.
    + intros [[Hl' _]|(d' & [Hl' _] & Heq)].
      * left. rewrite length_append, Hl in Hl'.
        destruct rest; [done|simpl in Hl'; lia].
      * right. assert (String.length rest = 1) as Hr.
        { apply (f_equal String.length) in Heq.
          rewrite !length_append, Hl, Hl' in Heq. simpl in Heq. lia. }
        clear Hd. revert d' Hl' Heq Hl.
        generalize 21. intros n. revert d.
        induction n as [|n IH]; intros [|c d] [|c' d'] ?? ?; simplify_eq/=; try done.
        eauto.
  - split; [done|]. intros [[Hl Hd]|(d & [Hl Hd] & ->)].
    + assert (eat_digits 21 s = Some ""%string) as Hs; [|congruence].
      apply eat_digits_Some. exists s. by rewrite append_empty.
    + assert (eat_digits 21 (d ++ newline) = Some newline) as Hs; [|congruence].
      apply eat_digits_Some. by exists d.
Qed.

(** What the validators of the field answer on a value that is not
    empty: the code of the pattern, then the code of the length. *)
Lemma run_validators_username c s :
  run_validators username_field (Some (String c s)) =
    (if search [Bol; Digits 21; Eol] (String c s) then [] else ["invalid"%string]) ++
    (if (21 <? String.length (String c s))%nat then ["max_length"%string] else []).
Proof.
  unfold run_validators.
  change (field_validators username_field) with
    [RegexValidator [Bol; Digits 21; Eol] "User Id should be 21 digits." "invalid";
     MaxLengthValidator 21].
  cbn [omap list_omap call_validator].
  destruct (search _ _); destruct (_ <? _)%nat; done.
Qed.

End UserId.

Section UserIdField.

(** C6, as amended. The validators of [GaeAbstractBaseUser.username]
    raise nothing exactly when the value is null, the empty string (the
    framework runs no validator on an empty value) or a string of exactly
    21 decimal digits; every other string, 21 digits followed by a
    newline apart, is rejected with the framework's [ValidationError] of
    code 'invalid'. *)
Theorem C6_username_validators (value : option string) :
  field "username" GaeAbstractBaseUser = Some username_field ∧
  (run_validators username_field value = [] ↔
     value = None ∨ value = Some ""%string ∨
     ∃ s, value = Some s ∧ is_user_id s) ∧
  (∀ s, value = Some s → s ≠ ""%string → ¬ is_user_id s →
        (∀ d, is_user_id d → s ≠ (d ++ newline)%string) →
        "invalid"%string ∈ run_validators username_field value).
Proof.
  split; [reflexivity|]. split.
  - destruct value as [[|c s]|]; [naive_solver..| |naive_solver].
    rewrite run_validators_username.
    destruct (search _ _) eqn:Hs; cycle 1.
    { split; [done|]. intros [?|[?|(s' & [= <-] & Hid)]]; [done..|].
      assert (search [Bol; Digits 21; Eol] (String c s) = true); [|congruence].
      apply search_user_id_pattern. by left. }
    apply search_user_id_pattern in Hs as [Hid|(d & [Hl Hd] & Heq)].
    + destruct Hid as [Hl Hd]. rewrite Hl. simpl. split; [|done].
      intros _. right. right. by exists (String c s).
    + assert (String.length (String c s) = 22) as Hl22
        by (by rewrite Heq, length_append, Hl).
      rewrite Hl22. simpl. split; [done|].
      intros [?|[?|(s' & [= <-] & [Hl' _])]]; [done..|].
      rewrite Heq, length_append, Hl in Hl'. simpl in Hl'. lia.
  - intros [|c s] -> Hne Hid Hnl; [done|].
    rewrite run_validators_username.
    destruct (search _ _) eqn:Hs; [|set_solver].
    apply search_user_id_pattern in Hs as [?|(d & ? & ?)]; [done|].
    by destruct (Hnl d).
Qed.

(** C6, as stated, fails: the empty string is not null and is not 21
    digits, and is not rejected with 'invalid': the validators do not run
    on it, and [Field.clean] rejects it before them with 'blank'. *)
Lemma C6_empty_string_is_not_invalid :
  ¬ is_user_id ""%string ∧
  run_validators username_field (Some ""%string) = [] ∧
  clean username_field (Some ""%string) = ["blank"%string].
Proof. split; [|done]. by intros [? _]. Qed.

(** The pattern ends in [$], which also matches before a last newline:
    a user id followed by a newline passes the pattern and is stopped by
    the length alone. *)
Example username_with_newline :
  run_validators username_field (Some (Sample.user_id ++ newline)%string) =
    ["max_length"%string].
Proof. reflexivity. Qed.

Example username_user_id :
  run_validators username_field (Some Sample.user_id) = [] ∧
  run_validators username_field (Some "12345"%string) = ["invalid"%string] ∧
  run_validators username_field None = [].
Proof. done. Qed.

End UserIdField.

(* ===================================================================== *)
(** * The declared schema                                                  *)
(* ===================================================================== *)

Section Schema.


Lemma PermissionsMixin_class (p : Process) :
  ∃ allowed,
    PERMISSIONS_LIST (PermissionsMixin p).2 = Some allowed ∧
    (PermissionsMixin p).1 =
      [ ("is_superuser",
          BooleanField
            [verbose_name "superuser status"; default_ (DefaultValue (VBool false));
             help_text "Designates that this user has all permissions without explicitly assigning them."]);
        ("groups",
          RelatedSetField "Group"
            [verbose_name "groups"; blank true;
             help_text "The groups this user belongs to. A user will get all permissions granted to each of his/her group."]);
        ("user_permissions",
          ListField (CharField [max_length 500])
            [verbose_name "user permissions"; blank true;
             help_text "Specific permissions for this user.";
             choices allowed]) ].
Proof.
  unfold PermissionsMixin. run_state.
  pose proof (get_permission_choices_stores p) as Hc.
  destruct (get_permission_choices p) as [allowed p1].
  cbn [fst snd] in Hc. by exists allowed.
Qed.



(** C5. [PermissionsMixin] declares three fields: [is_superuser], a
    boolean whose default is [False]; [groups], a set of references to
    [Group]; [user_permissions], a list field of text items kept on the
    record, whose choices are the permission choices; none is a relation
    through another table. *)
Theorem C5_PermissionsMixin_schema (p : Process) (now : Time) :
  let mixin := (PermissionsMixin p).1 in
  ∃ allowed is_superuser_field groups_field user_permissions_field,
    PERMISSIONS_LIST (PermissionsMixin p).2 = Some allowed ∧
    mixin = [ ("is_superuser", is_superuser_field);
              ("groups", groups_field);
              ("user_permissions", user_permissions_field) ] ∧
    kind_of is_superuser_field = Boolean ∧
    get_default is_superuser_field now = Some (VBool false) ∧
    kind_of groups_field = SetOfRefs "Group" ∧
    kind_of user_permissions_field = ListOf Text ∧
    field_choices user_permissions_field = allowed ∧
    Forall (λ f, relational f = false) mixin.*2.
Proof.
  intros mixin. subst mixin.
  destruct (PermissionsMixin_class p) as (allowed & Hc & ->).
  exists allowed. do 3 eexists. split; [done|]. split; [reflexivity|].
  repeat split. repeat constructor.
Qed.

(** When the registry is still empty while the body of [Group] runs, and
    the class is registered before the body of [PermissionsMixin] runs, the
    two classes get different choices: none, and the codenames of [Group]. *)
Example choices_when_registry_starts_empty :
  let after_group := run [RegisterApp [Sample.group_model]] (Group Sample.empty_process).2 in
  field_choices <$> (Group Sample.empty_process).1.*2 = [[]; []] ∧
  field_choices <$> (PermissionsMixin after_group).1.*2 =
    [[]; [];
     [("add_group", "Can add group"); ("change_group", "Can change group");
      ("delete_group", "Can delete group")]].
Proof. vm_compute. done. Qed.

(** C7. The body of [GaeAbstractBaseUser] declares seven fields:
    [username], unique and nullable; [first_name] and [last_name];
    [email]; [is_staff], whose default is [False]; [is_active], whose
    default is [True]; [date_joined], whose default is the time at which
    the instance is made. *)
Theorem C7_GaeAbstractBaseUser_schema (now : Time) :
  GaeAbstractBaseUser.*1 =
    ["username"; "first_name"; "last_name"; "email";
     "is_staff"; "is_active"; "date_joined"]%string ∧
  kind_of <$> GaeAbstractBaseUser.*2 =
    [Text; Text; Text; Email; Boolean; Boolean; DateTime] ∧
  field_unique (declared "username") = true ∧
  field_null (declared "username") = true ∧
  get_default (declared "is_staff") now = Some (VBool false) ∧
  get_default (declared "is_active") now = Some (VBool true) ∧
  get_default (declared "date_joined") now = Some (VTime now) ∧
  GaeAbstractBaseUser_bases.*1 = ["password"; "last_login"]%string.
Proof. repeat split. Qed.

End Schema.

(* ===================================================================== *)
(** * More on the permission choices                                       *)
(* ===================================================================== *)

Section ChoicesMore.

Lemma length_bind_const {A B} (f : A → list B) (k : nat) (l : list A) :
  (∀ x, length (f x) = k) → length (l ≫= f) = length l * k.
Proof.
  intros Hf. induction l as [|x l IH]; [done|].
  change ((x :: l) ≫= f) with (f x ++ (l ≫= f)).
  rewrite length_app, Hf, IH. simpl. lia.
Qed.

Lemma length_registry_choices actions apps :
  length (registry_choices actions apps) =
    length (concat apps) * length actions.
Proof.
  unfold registry_choices. induction apps as [|app apps IH]; [done|].
  change ((app :: apps) ≫= ?f) with (f app ++ (apps ≫= f)).
  rewrite length_app, IH. simpl. rewrite length_app.
  rewrite (length_bind_const _ (length actions)).
  - unfold get_models. lia.
  - intros model. unfold model_choices. by rewrite length_fmap.
Qed.

(** Calling again and again is calling once: after any number of calls
    in a row the process is as the first call left it, and the next call
    returns what the first returned. *)
Theorem get_permission_choices_repeated (p : Process) (n : nat) :
  run (replicate (S n) Call) p = (get_permission_choices p).2 ∧
  get_permission_choices (run (replicate (S n) Call) p) =
    get_permission_choices p.
Proof.
  assert (run (replicate (S n) Call) p = (get_permission_choices p).2) as Hrun.
  { revert p. induction n as [|n IH]; intros p; [done|].
    change (run (replicate (S (S n)) Call) p)
      with (run (replicate (S n) Call) (get_permission_choices p).2).
    by rewrite IH, get_permission_choices_again. }
  split; [done|]. rewrite Hrun. apply get_permission_choices_again.
Qed.

(** The first call returns as many pairs as there are manual permissions,
    plus one per registered model and action: nothing is merged or
    dropped, also when two models give the same pair. *)
Theorem get_permission_choices_length (conf : Settings) (apps : list App) :
  length (get_permission_choices (fresh conf apps)).1 =
    length (manual_of conf) + length (concat apps) * length (actions_of conf).
Proof.
  destruct (get_permission_choices_scans (fresh conf apps) eq_refl) as (-> & _).
  rewrite sorted_Permutation, length_app. simpl.
  by rewrite length_registry_choices.
Qed.

(** A pair is in the list the first call returns exactly when it is a
    manual permission or the pair of an action in force and a model of a
    registered application. *)
Theorem get_permission_choices_elem_of (conf : Settings) (apps : list App)
    (c : Choice) :
  c ∈ (get_permission_choices (fresh conf apps)).1 ↔
  c ∈ manual_of conf ∨
  ∃ app model action,
    app ∈ apps ∧ model ∈ get_models app ∧ action ∈ actions_of conf ∧
    c = (get_permission_codename action model,
         fmt_can action (verbose_name_raw model)).
Proof.
  destruct (get_permission_choices_scans (fresh conf apps) eq_refl) as (-> & _).
  rewrite sorted_Permutation, elem_of_app. simpl.
  unfold registry_choices. rewrite list_elem_of_bind.
  split; (intros [?|H]; [by left|right]).
  - destruct H as (app & Hc & Happ).
    apply list_elem_of_bind in Hc as (model & Hc & Hmodel).
    apply list_elem_of_fmap in Hc as (action & -> & Haction).
    by exists app, model, action.
  - destruct H as (app & model & action & Happ & Hmodel & Haction & ->).
    exists app. split; [|done]. apply list_elem_of_bind.
    exists model. split; [|done]. apply list_elem_of_fmap. by exists action.
Qed.

(** The order in which the applications are registered and the order of
    the manual permissions do not show in the result. *)
Theorem get_permission_choices_order_independent
    (conf conf' : Settings) (apps apps' : list App) :
  apps ≡ₚ apps' →
  manual_of conf ≡ₚ manual_of conf' →
  actions_of conf = actions_of conf' →
  (get_permission_choices (fresh conf apps)).1 =
    (get_permission_choices (fresh conf' apps')).1.
Proof.
  intros Happs Hmanual Hactions.
  destruct (get_permission_choices_scans (fresh conf apps) eq_refl) as (-> & _).
  destruct (get_permission_choices_scans (fresh conf' apps') eq_refl) as (-> & _).
  simpl. apply sorted_unique; [apply sorted_Sorted|].
  rewrite sorted_Permutation, Hmanual, Hactions.
  apply Permutation_app; [done|].
  unfold registry_choices. by rewrite Happs.
Qed.

(** What a call changes besides [PERMISSIONS_LIST]: never the registry,
    never [AUTOGENERATED_PERMISSIONS], and [MANUAL_PERMISSIONS] only when
    the call scans and the setting is there; the list of the settings then
    holds the generated pairs after the manual ones. *)
Theorem get_permission_choices_side_effects (p : Process) :
  let p' := (get_permission_choices p).2 in
  app_cache p' = app_cache p ∧
  AUTOGENERATED_PERMISSIONS (settings p') = AUTOGENERATED_PERMISSIONS (settings p) ∧
  MANUAL_PERMISSIONS (settings p') =
    if truthy (PERMISSIONS_LIST p) then MANUAL_PERMISSIONS (settings p)
    else (λ manual,
            manual ++ registry_choices (actions_of (settings p)) (app_cache p))
         <$> MANUAL_PERMISSIONS (settings p).
Proof.
  destruct (truthy (PERMISSIONS_LIST p)) eqn:H.
  - by rewrite get_permission_choices_cached.
  - rewrite get_permission_choices_scan_eq by done. simpl.
    unfold manual_of.
    destruct (MANUAL_PERMISSIONS (settings p)) eqn:E; simpl; [done|].
    by rewrite E.
Qed.

End ChoicesMore.

(** Two applications registered in one order or the other. *)
Lemma get_permission_choices_order_independent_witness :
  [[Sample.user_model]; [Sample.group_model]] ≡ₚ
    [[Sample.group_model]; [Sample.user_model]] ∧
  (get_permission_choices
     (fresh (mkSettings None None) [[Sample.user_model]; [Sample.group_model]])).1 =
  (get_permission_choices
     (fresh (mkSettings None None) [[Sample.group_model]; [Sample.user_model]])).1.
Proof.
  split; [apply perm_swap|].
  apply (get_permission_choices_order_independent
           (mkSettings None None) (mkSettings None None)
           [[Sample.user_model]; [Sample.group_model]]
           [[Sample.group_model]; [Sample.user_model]]);
    [apply perm_swap|reflexivity|reflexivity].
Defined.

(* ===================================================================== *)
(** * More on the permission checks                                        *)
(* ===================================================================== *)

Section ChecksMore.


Lemma each_has_module_perms_answer backends user app_label (auth : Auth User) :
  (each_has_module_perms backends user app_label auth).1 =
    existsb (backend_grants_module user app_label) backends ∧
  ∃ more,
    (each_has_module_perms backends user app_label auth).2 =
      mkAuth (AUTHENTICATION_BACKENDS auth) (consulted auth ++ more).
Proof.
  revert auth. induction backends as [|b backends IH]; intros auth; simpl.
  - split; [done|]. exists []. rewrite app_nil_r. by destruct auth.
  - unfold backend_grants_module at 1.
    destruct (backend_has_module_perms b) as [method|]; [|apply IH].
    unfold record. run_state. simpl.
    destruct (method user app_label); simpl; [split; [done|by eexists]|].
    destruct (IH (mkAuth (AUTHENTICATION_BACKENDS auth)
                    (consulted auth ++ [AskedModulePerms (backend_path b) app_label])))
      as [Hr [more Hs]].
    rewrite Hr, Hs. split; [done|]. simpl. rewrite <-app_assoc. by eexists.
Qed.


(** [has_perm] returns [True] exactly for an active superuser and for a
    user to whom a configured backend that has the method grants the
    permission; a backend without [has_perm] never grants. *)
Theorem has_perm_iff (self : User) (perm : string) (obj : option Value)
    (auth : Auth User) :
  (has_perm self perm obj auth).1 = true ↔
  (is_active self = true ∧ is_superuser self = true) ∨
  ∃ backend method,
    backend ∈ AUTHENTICATION_BACKENDS auth ∧
    backend_has_perm backend = Some method ∧
    method self perm obj = true.
Proof.
  rewrite (proj1 (has_perm_answer self perm obj auth)). unfold granted.
  rewrite orb_true_iff, andb_true_iff, existsb_exists.
  split; (intros [?|H]; [by left|right]).
  - destruct H as (backend & Hin & Hg). unfold backend_grants in Hg.
    destruct (backend_has_perm backend) as [method|] eqn:Hm; [|done].
    exists backend, method. by rewrite list_elem_of_In.
  - destruct H as (backend & method & Hin & Hm & Hg).
    exists backend. split; [by apply list_elem_of_In|].
    unfold backend_grants. by rewrite Hm.
Qed.

(** [has_module_perms] returns [True] exactly for an active superuser and
    for a user to whom a configured backend that has the method grants
    permissions in the application. *)
Theorem has_module_perms_iff (self : User) (app_label : string)
    (auth : Auth User) :
  (has_module_perms self app_label auth).1 = true ↔
  (is_active self = true ∧ is_superuser self = true) ∨
  ∃ backend method,
    backend ∈ AUTHENTICATION_BACKENDS auth ∧
    backend_has_module_perms backend = Some method ∧
    method self app_label = true.
Proof.
  unfold has_module_perms.
  destruct (is_active self && is_superuser self) eqn:Hsu.
  - apply andb_true_iff in Hsu. split; [by left|done].
  - unfold _user_has_module_perms, get_backends, record. run_state. simpl.
    rewrite (proj1 (each_has_module_perms_answer _ _ _ _)), existsb_exists.
    apply andb_false_iff in Hsu. split.
    + intros (backend & Hin & Hg). right. unfold backend_grants_module in Hg.
      destruct (backend_has_module_perms backend) as [method|] eqn:Hm; [|done].
      exists backend, method. by rewrite list_elem_of_In.
    + intros [[Ha Hs]|(backend & method & Hin & Hm & Hg)].
      { destruct Hsu; congruence. }
      exists backend. split; [by apply list_elem_of_In|].
      unfold backend_grants_module. by rewrite Hm.
Qed.

Lemma each_has_perm_stops bs1 b bs2 bs2' user perm obj (auth auth' : Auth User) :
  backend_grants user perm obj b = true →
  consulted auth = consulted auth' →
  (each_has_perm (bs1 ++ b :: bs2) user perm obj auth).1 = true ∧
  consulted (each_has_perm (bs1 ++ b :: bs2) user perm obj auth).2 =
    consulted (each_has_perm (bs1 ++ b :: bs2') user perm obj auth').2.
Proof.
  intros Hg. revert auth auth'.
  induction bs1 as [|a bs1 IH]; intros auth auth' Hlog; simpl.
  - unfold backend_grants in Hg.
    destruct (backend_has_perm b) as [method|]; [|done].
    unfold record. run_state. simpl. rewrite Hg. simpl. by rewrite Hlog.
  - destruct (backend_has_perm a) as [method|]; [|by apply IH].
    unfold record. run_state. simpl.
    destruct (method user perm obj); simpl; [by rewrite Hlog|].
    apply IH. simpl. by rewrite Hlog.
Qed.

(** The backends configured after one that grants are never asked: the
    answer is [True] and the record of what was asked is the same whatever
    comes after that backend. *)
Theorem has_perm_stops_at_first_grant (self : User) (perm : string)
    (obj : option Value) (bs1 : list (Backend User)) (b : Backend User)
    (bs2 bs2' : list (Backend User)) (log : list Consulted) :
  backend_grants self perm obj b = true →
  (has_perm self perm obj (mkAuth (bs1 ++ b :: bs2) log)).1 = true ∧
  consulted (has_perm self perm obj (mkAuth (bs1 ++ b :: bs2) log)).2 =
    consulted (has_perm self perm obj (mkAuth (bs1 ++ b :: bs2') log)).2.
Proof.
  intros Hg. unfold has_perm.
  destruct (is_active self && is_superuser self); [done|].
  unfold _user_has_perm, get_backends, record. run_state. simpl.
  by apply each_has_perm_stops.
Qed.

(** Checking a list of permissions in two parts: the second part is
    checked only when the first part is granted, in the state the first
    part left. *)
Theorem has_perms_app (self : User) (l1 l2 : list string)
    (obj : option Value) (auth : Auth User) :
  has_perms self (l1 ++ l2) obj auth =
    let '(granted1, auth1) := has_perms self l1 obj auth in
    if granted1 then has_perms self l2 obj auth1 else (false, auth1).
Proof.
  revert auth. induction l1 as [|perm l1 IH]; intros auth; simpl; [done|].
  run_state. destruct (has_perm self perm obj auth) as [[] auth0]; simpl; [|done].
  apply IH.
Qed.


End ChecksMore.

(** The sample user is granted [add_user] by the list backend, whatever is
    configured after it. *)
Lemma has_perm_stops_at_first_grant_witness :
  backend_grants Sample.staff_user "add_user" None Sample.list_backend = true ∧
  (has_perm Sample.staff_user "add_user" None
     (mkAuth ([Sample.bare_backend] ++ Sample.list_backend :: [Sample.list_backend]) [])).1 = true ∧
  consulted (has_perm Sample.staff_user "add_user" None
     (mkAuth ([Sample.bare_backend] ++ Sample.list_backend :: [Sample.list_backend]) [])).2 =
  consulted (has_perm Sample.staff_user "add_user" None
     (mkAuth ([Sample.bare_backend] ++ Sample.list_backend :: []) [])).2.
Proof.
  split; [reflexivity|].
  apply (has_perm_stops_at_first_grant Sample.staff_user "add_user" None
           [Sample.bare_backend] Sample.list_backend [Sample.list_backend] [] []).
  reflexivity.
Defined.

Section GroupPermissions.

Lemma get_group_permissions_snoc backends backend self obj :
  get_group_permissions (backends ++ [backend]) self obj =
    get_group_permissions backends self obj ∪
    match backend_get_group_permissions backend with
    | Some method => method self obj
    | None => ∅
    end.
Proof.
  unfold get_group_permissions. rewrite foldl_app. simpl.
  destruct (backend_get_group_permissions backend) as [method|].
  - by destruct obj.
  - by rewrite (right_id_L ∅ (∪)).
Qed.

(** A permission is among the group permissions exactly when a backend
    that has [get_group_permissions] reports it, for the object passed or
    for none. Without such a backend the set is empty. *)
Theorem get_group_permissions_elem_of (backends : list GroupBackend)
    (self : User) (obj : option Value) (perm : string) :
  perm ∈ get_group_permissions backends self obj ↔
  ∃ backend method,
    backend ∈ backends ∧
    backend_get_group_permissions backend = Some method ∧
    perm ∈ method self obj.
Proof.
  induction backends as [|backend backends IH] using rev_ind.
  - split; [set_solver|]. intros (b & _ & Hin & _). set_solver.
  - rewrite get_group_permissions_snoc, elem_of_union, IH. split.
    + intros [(b & m & Hb & Hm & Hp)|Hp].
      * exists b, m. split; [|done]. apply elem_of_app. by left.
      * destruct (backend_get_group_permissions backend) as [m|] eqn:Hm;
          [|by apply not_elem_of_empty in Hp].
        exists backend, m. split; [|done].
        apply elem_of_app. right. by apply list_elem_of_singleton.
    + intros (b & m & Hb & Hm & Hp).
      apply elem_of_app in Hb as [Hb|Hb].
      * left. by exists b, m.
      * right. apply list_elem_of_singleton in Hb as ->. by rewrite Hm.
Qed.

End GroupPermissions.

(* ===================================================================== *)
(** * Names and URLs                                                       *)
(* ===================================================================== *)

Section Strip.
Context (isspace : ascii → bool).

Lemma lstrip_head s c :
  head_char (lstrip isspace s) = Some c → isspace c = false.
Proof.
  induction s as [|a s IH]; simpl; [done|].
  destruct (isspace a) eqn:Ha; [done|]. simpl. by intros [= <-].
Qed.

Lemma rstrip_head s c :
  head_char (rstrip isspace s) = Some c → head_char s = Some c.
Proof.
  destruct s as [|a s]; simpl; [done|].
  destruct (rstrip isspace s); [|done]. by destruct (isspace a).
Qed.

Lemma rstrip_last s c :
  last_char (rstrip isspace s) = Some c → isspace c = false.
Proof.
  induction s as [|a s IH]; simpl; [done|].
  destruct (rstrip isspace s) as [|b kept] eqn:Hk.
  - destruct (isspace a) eqn:Ha; [done|]. simpl. by intros [= <-].
  - change (last_char (String a (String b kept)))
      with (last_char (String b kept)). done.
Qed.

Lemma lstrip_id s c :
  head_char s = Some c → isspace c = false → lstrip isspace s = s.
Proof. destruct s as [|a s]; simpl; [done|]. intros [= ->] ->. done. Qed.

Lemma rstrip_id s c :
  last_char s = Some c → isspace c = false → rstrip isspace s = s.
Proof.
  intros Hl Hc. induction s as [|a s IH]; [done|].
  destruct s as [|b s].
  - simpl in *. injection Hl as ->. by rewrite Hc.
  - change (last_char (String a (String b s))) with (last_char (String b s)) in Hl.
    change (rstrip isspace (String a (String b s)))
      with (match rstrip isspace (String b s) with
            | EmptyString => if isspace a then EmptyString else String a EmptyString
            | kept => String a kept
            end).
    by rewrite IH.
Qed.

Lemma last_char_append s t :
  t ≠ EmptyString → last_char (s ++ t)%string = last_char t.
Proof.
  intros Ht. induction s as [|a s IH]; [done|].
  rewrite append_cons.
  change (last_char (String a (s ++ t)%string))
    with (match (s ++ t)%string with
          | EmptyString => Some a
          | _ => last_char (s ++ t)%string
          end).
  rewrite IH. destruct s; [|done]. rewrite append_empty_l. by destruct t.
Qed.

Lemma rstrip_append_space s sp :
  isspace sp = true →
  rstrip isspace (s ++ String sp "")%string = rstrip isspace s.
Proof.
  intros Hsp. induction s as [|a s IH].
  - rewrite append_empty_l. simpl. by rewrite Hsp.
  - rewrite append_cons. simpl. by rewrite IH.
Qed.

Lemma lstrip_append_space s sp :
  isspace sp = true →
  lstrip isspace (s ++ String sp "")%string =
    match lstrip isspace s with
    | EmptyString => EmptyString
    | kept => (kept ++ String sp "")%string
    end.
Proof.
  intros Hsp. induction s as [|a s IH].
  - rewrite append_empty_l. simpl. by rewrite Hsp.
  - rewrite append_cons. simpl. destruct (isspace a); [done|].
    by rewrite append_cons.
Qed.

Lemma strip_append_space s sp :
  isspace sp = true →
  strip isspace (s ++ String sp "")%string = strip isspace s.
Proof.
  intros Hsp. unfold strip. rewrite lstrip_append_space by done.
  destruct (lstrip isspace s) as [|a kept]; [done|].
  by rewrite rstrip_append_space.
Qed.

(** The full name never starts or ends with whitespace. *)
Theorem get_full_name_stripped (self : User) (c : ascii) :
  head_char (get_full_name isspace self) = Some c ∨
  last_char (get_full_name isspace self) = Some c →
  isspace c = false.
Proof.
  unfold get_full_name, strip. intros [H|H].
  - eapply lstrip_head, rstrip_head, H.
  - eapply rstrip_last, H.
Qed.

(** When the first name does not start with whitespace and the last name
    does not end with it, the full name is the two names with one space
    between them. *)
Theorem get_full_name_both (self : User) (c d : ascii) :
  head_char (first_name self) = Some c → isspace c = false →
  last_char (last_name self) = Some d → isspace d = false →
  get_full_name isspace self =
    (first_name self ++ " " ++ last_name self)%string.
Proof.
  intros Hc Hcs Hd Hds. unfold get_full_name, strip, fmt_space.
  destruct (first_name self) as [|a first] eqn:Hf; [done|].
  simpl in Hc. injection Hc as ->.
  rewrite (lstrip_id _ c); [|done..].
  apply (rstrip_id _ d); [|done].
  rewrite <-Hd.
  change (String c first ++ " " ++ last_name self)%string
    with (String c first ++ (" " ++ last_name self))%string.
  rewrite last_char_append by done.
  apply (last_char_append " "). by destruct (last_name self).
Qed.

(** Without a last name the full name is the first name stripped, and
    without a first name it is the last name stripped: the space that was
    put between them does not stay. *)
Theorem get_full_name_one (self : User) :
  isspace " " = true →
  (last_name self = EmptyString →
   get_full_name isspace self = strip isspace (first_name self)) ∧
  (first_name self = EmptyString →
   get_full_name isspace self = strip isspace (last_name self)).
Proof.
  intros Hsp. unfold get_full_name, fmt_space. split; intros ->.
  - change (first_name self ++ " " ++ "")%string
      with (first_name self ++ String " " "")%string.
    by apply strip_append_space.
  - unfold strip. rewrite append_empty_l.
    change (" " ++ last_name self)%string with (String " " (last_name self)).
    simpl. by rewrite Hsp.
Qed.

End Strip.

(** The sample users under the whitespace of byte strings. *)
Lemma get_full_name_stripped_witness :
  head_char (get_full_name isspace_byte Sample.ada) = Some "A"%char ∧
  isspace_byte "A" = false.
Proof.
  split; [reflexivity|].
  apply (get_full_name_stripped isspace_byte Sample.ada "A"). left. reflexivity.
Defined.

Lemma get_full_name_both_witness :
  get_full_name isspace_byte Sample.ada = "Ada Lovelace"%string.
Proof.
  apply (get_full_name_both isspace_byte Sample.ada "A" "e"); reflexivity.
Defined.

Lemma get_full_name_one_witness :
  last_name Sample.staff_user = EmptyString ∧
  get_full_name isspace_byte Sample.staff_user = "Bob"%string.
Proof.
  split; [reflexivity|].
  apply (proj1 (get_full_name_one isspace_byte Sample.staff_user eq_refl)).
  reflexivity.
Defined.

Section Urls.

Lemma list_ascii_of_string_append s t :
  list_ascii_of_string (s ++ t)%string =
    list_ascii_of_string s ++ list_ascii_of_string t.
Proof.
  induction s as [|c s IH]; [done|]. rewrite append_cons. simpl. by rewrite IH.
Qed.

Lemma quote_safe s safe :
  Forall (λ c, always_safe c = true) (list_ascii_of_string s) →
  quote s safe = s.
Proof.
  induction s as [|c s IH]; simpl; [done|].
  intros [Hc Hs]%Forall_cons. unfold quote_char. rewrite Hc. simpl.
  rewrite append_cons, append_empty_l. by rewrite IH.
Qed.

Lemma is_digit_always_safe c : is_digit c = true → always_safe c = true.
Proof. unfold always_safe. intros ->. by rewrite !orb_true_r. Qed.

Lemma hex_digit_safe n : n < 16 → always_safe (hex_digit n) = true.
Proof.
  intros Hn. do 16 (destruct n as [|n]; [reflexivity|]). lia.
Qed.

Lemma quote_char_url_chars safe c :
  (∀ a, occurs a safe = true → url_char a = true) →
  Forall (λ a, url_char a = true) (list_ascii_of_string (quote_char safe c)).
Proof.
  intros Hsafe. unfold quote_char.
  destruct (always_safe c || occurs c safe) eqn:Hc.
  - repeat constructor. apply orb_true_iff in Hc as [Hc|Hc]; [|by apply Hsafe].
    unfold url_char. by rewrite Hc.
  - pose proof (nat_ascii_bounded c) as Hb.
    repeat constructor; unfold url_char.
    + rewrite hex_digit_safe; [done|]. apply Nat.Div0.div_lt_upper_bound. lia.
    + rewrite hex_digit_safe; [done|]. apply Nat.mod_upper_bound. lia.
Qed.

Lemma quote_url_chars s safe :
  (∀ a, occurs a safe = true → url_char a = true) →
  Forall (λ a, url_char a = true) (list_ascii_of_string (quote s safe)).
Proof.
  intros Hsafe. induction s as [|c s IH]; simpl; [constructor|].
  rewrite list_ascii_of_string_append. apply Forall_app.
  split; [by apply quote_char_url_chars|done].
Qed.

(** The URL of a user whose username is made of digits, as a user id is,
    is [/users/<username>/]: nothing is escaped. *)
Theorem get_absolute_url_digits (self : User) (id : string) :
  username self = Some id → all_digits id →
  get_absolute_url self = ("/users/" ++ id ++ "/")%string.
Proof.
  intros Hu Hd. unfold get_absolute_url, urlquote. rewrite Hu. simpl.
  rewrite quote_safe; [done|].
  eapply Forall_impl; [exact Hd|]. intros c. apply is_digit_always_safe.
Qed.

(** Whatever the username is, the URL holds only letters, digits, the
    characters [_.-/] and the [%] of escapes. *)
Theorem get_absolute_url_chars (self : User) :
  Forall (λ c, url_char c = true)
    (list_ascii_of_string (get_absolute_url self)).
Proof.
  unfold get_absolute_url.
  rewrite !list_ascii_of_string_append, !Forall_app.
  split; [by repeat constructor|]. split; [|by repeat constructor].
  apply quote_url_chars. intros a. simpl. rewrite orb_false_r.
  intros ->%Ascii.eqb_eq. reflexivity.
Qed.

End Urls.

Lemma get_absolute_url_digits_witness :
  username Sample.ada = Some Sample.user_id ∧
  get_absolute_url Sample.ada = "/users/123456789012345678901/"%string.
Proof.
  split; [reflexivity|].
  apply (get_absolute_url_digits Sample.ada Sample.user_id); [reflexivity|].
  repeat constructor.
Defined.

(* ===================================================================== *)
(** * More on the manager                                                  *)
(* ===================================================================== *)

Section ManagerMore.


(** With a manager whose [create] returns the keyword arguments as the
    record: the record has the names of [extra_fields] and the four names
    the method sets, and no other. *)
Theorem pre_create_google_user_names (self : UserManager (gmap string Value))
    (email : string) (extra_fields : gmap string Value) :
  (∀ values, create values = values) →
  dom (pre_create_google_user email extra_fields) =
    dom extra_fields ∪ {[ "is_active"%string ]} ∪ fixed_names.
Proof.
  intros Hcreate. unfold pre_create_google_user. rewrite Hcreate. cbv zeta.
  rewrite !dom_insert_L, dom_union_L, dom_singleton_L.
  unfold fixed_names. apply set_eq. intros name.
  rewrite !elem_of_union. tauto.
Qed.



End ManagerMore.


Lemma pre_create_google_user_names_witness :
  dom (pre_create_google_user (self := Sample.manager) "ada@example.com"
         {[ "first_name" := VStr "Ada" ]}) =
    {[ "first_name"%string ]} ∪ {[ "is_active"%string ]} ∪ fixed_names.
Proof.
  rewrite (pre_create_google_user_names Sample.manager "ada@example.com"
             {[ "first_name" := VStr "Ada" ]} (λ values, eq_refl)).
  rewrite dom_singleton_L. reflexivity.
Defined.


(* ===================================================================== *)
(** * More on field validation                                             *)
(* ===================================================================== *)

Section ValidationMore.

Lemma run_validators_username_passes c s :
  run_validators username_field (Some (String c s)) = [] ↔
  is_user_id (String c s).
Proof.
  rewrite run_validators_username.
  destruct (search _ _) eqn:Hs.
  - apply search_user_id_pattern in Hs as [Hid|(d & [Hl Hd] & Heq)].
    + destruct Hid as [Hl Hd]. rewrite Hl. done.
    + assert (String.length (String c s) = 22) as Hl22
        by (by rewrite Heq, length_append, Hl).
      rewrite Hl22. simpl. split; [done|]. intros [Hl' _]. lia.
  - split; [done|]. intros Hid.
    assert (search [Bol; Digits 21; Eol] (String c s) = true); [|congruence].
    apply search_user_id_pattern. by left.
Qed.

(** [Field.clean] on the username accepts a string of exactly 21 digits
    and nothing else: the empty string and also [None] are refused, as
    blank, although the field is nullable. *)
Theorem clean_username (value : option string) :
  (clean username_field value = [] ↔ ∃ s, value = Some s ∧ is_user_id s) ∧
  (in_empty_values value = true → clean username_field value = ["blank"%string]).
Proof.
  split.
  - destruct value as [[|c s]|].
    + split; [done|]. by intros (s & [= <-] & [? _]).
    + change (clean username_field (Some (String c s)))
        with (run_validators username_field (Some (String c s))).
      rewrite run_validators_username_passes. split; [by eexists|].
      by intros (s' & [= <-] & ?).
    + split; [done|]. by intros (s & ? & _).
  - by destruct value as [[|c s]|].
Qed.

(** The validators of the username raise 'max_length' alone exactly on a
    user id followed by one newline: the pattern lets it pass and the
    length stops it. *)
Theorem run_validators_username_max_length_alone (s : string) :
  run_validators username_field (Some s) = ["max_length"%string] ↔
  ∃ d, is_user_id d ∧ s = (d ++ newline)%string.
Proof.
  destruct s as [|c s].
  - split; [done|]. intros ([|a d] & [Hl _] & Heq); [done|].
    by rewrite append_cons in Heq.
  - rewrite run_validators_username.
    destruct (search _ _) eqn:Hs.
    + apply search_user_id_pattern in Hs as [[Hl Hd]|(d & [Hl Hd] & Heq)].
      * rewrite Hl. simpl. split; [done|].
        intros (d & [Hl' _] & Heq). rewrite Heq, length_append, Hl' in Hl.
        simpl in Hl. lia.
      * assert (String.length (String c s) = 22) as Hl22
          by (by rewrite Heq, length_append, Hl).
        rewrite Hl22. simpl. split; [|done]. intros _. by exists d.
    + split.
      * destruct (_ <? _)%nat; done.
      * intros (d & Hid & Heq).
        assert (search [Bol; Digits 21; Eol] (String c s) = true); [|congruence].
        apply search_user_id_pattern. right. by exists d.
Qed.

Lemma clean_blank_text (label : string) (n : nat) (value : option string) :
  clean (CharField [verbose_name label; max_length n; blank true]) value = [] ↔
  ∃ s, value = Some s ∧ (String.length s ≤ n)%nat.
Proof.
  destruct value as [[|c s]|].
  - split; [|done]. intros _. exists ""%string. split; [done|simpl; lia].
  - set (f := CharField _).
    assert (clean f (Some (String c s)) =
            omap (λ v, call_validator v (String c s)) [MaxLengthValidator n])
      as -> by reflexivity.
    cbn [omap list_omap call_validator].
    destruct (Nat.ltb_spec n (String.length (String c s))).
    + split; [done|]. intros (s' & [= <-] & ?). lia.
    + split; [|done]. intros _. eexists. split; [done|lia].
  - split; [done|]. by intros (? & ? & _).
Qed.

(** [Field.clean] on [first_name] and on [last_name] accepts every string
    of at most 30 characters, the empty one too, and refuses [None]. *)
Theorem clean_names (name : string) (value : option string) :
  name = "first_name"%string ∨ name = "last_name"%string →
  (clean (declared name) value = [] ↔
   ∃ s, value = Some s ∧ (String.length s ≤ 30)%nat).
Proof. intros [-> | ->]; apply (clean_blank_text _ 30). Qed.

End ValidationMore.

Lemma clean_names_witness :
  clean (declared "first_name") (Some "Ada"%string) = [] ↔
  ∃ s, Some "Ada"%string = Some s ∧ (String.length s ≤ 30)%nat.
Proof.
  apply (clean_names "first_name" (Some "Ada"%string)). left. reflexivity.
Defined.
